(** * A shallow embedding of [src/runner.js]

    The runner is a tree-walking evaluator: [dslRuleHandler] dispatches on a
    node's [shape], each shape has a rule handler, every dispatch is wrapped
    in [try { ... } catch (e) { console.error(e); return undefined; }], and
    [run] evaluates the top-level nodes of a program and collects the values
    of the requested ids.

    What the embedding keeps of the JavaScript:
    - values: [undefined], numbers, strings, functions, arrays and the
      object [Object.prototype];
    - bindings objects live in a store and are passed by reference, so that
      [Bindings[n.name] = value] is an in-place update that every holder of
      the reference sees, and [Object.assign({}, pB, pN.bindings)] is a fresh
      object;
    - a bindings object is a plain object: it has its own properties and
      inherits those of [Object.prototype], so that [b[k]] for a name
      that is not bound in [b] is the inherited value when there is one
      ([toString], [constructor], ...), and [b['__proto__'] = v] goes to
      the inherited setter and creates no property;
    - [throw] and [try]/[catch] are an outcome threaded with the store;
    - [console.error] appends to a log kept in the state.

    What it leaves out: a bindings object whose prototype is not
    [Object.prototype] (the setter of [__proto__] makes an array or a
    function the prototype of the object; the embedding leaves the object
    alone there, as the engine does for a number or a string, and the
    statements that read or write names after such an Assignment exclude
    it) or that has an own property named [__proto__] (which only
    [JSON.parse] or [Object.defineProperty] can make), the
    in-place rewriting of a Function node's [args] array (one pass over a
    tree reads every slot before it is overwritten), and host operations
    with effects of their own (a host operation is a function of its two
    arguments that returns or throws). *)

From Stdlib Require Import ZArith Lia.
From stdpp Require Import gmap strings list pretty.

Local Open Scope Z_scope.
Local Open Scope string_scope.
Local Set Warnings "-register-all".

(** ** Values *)

(** A JavaScript number, as far as the runner and its scenarios need it:
    an integer, or [NaN]. *)
Inductive number : Type :=
| Int (z : Z)
| NaN.

(** A function is named by a handle (its source text); what it does is
    given by the interpretation the evaluator is run with. *)
Definition hostfn : Type := string.

(** [VObjectPrototype] is the object [Object.prototype], which
    [b['__proto__']] evaluates to. *)
Inductive Value : Type :=
| VUndef
| VNum (n : number)
| VStr (s : string)
| VFun (f : hostfn)
| VArr (elems : list Value)
| VObjectPrototype.

(** [value !== undefined] *)
Definition defined (v : Value) : bool :=
  match v with
  | VUndef => false
  | _ => true
  end.

(** [typeof (value) === 'number'] *)
Definition is_number (v : Value) : bool :=
  match v with
  | VNum _ => true
  | _ => false
  end.

(** What calling a host function does. *)
Inductive HostResult : Type :=
| HostReturns (v : Value)
| HostThrows (e : string).

(** ** Nodes *)

(** The value of [shape]. The runner compares it with six string constants
    only, so every other tag, and a missing tag, is [ShOther]. *)
Inductive Shape : Type :=
| ShBlock
| ShAssignment
| ShArray
| ShFunction
| ShLiteral
| ShIdentifier
| ShOther.

(** One constructor per shape, with the fields its handler reads. Of a
    Function node's [callee] only [callee.name] is read. *)
Inductive DslNode : Type :=
| Block (id : Z) (nodes : list DslNode) (bindings : gmap string Value)
| Assignment (id : Z) (name : string) (value : DslNode)
| Array (id : Z) (nodes : list DslNode)
| Function (id : Z) (callee : string) (args : list DslNode)
| Literal (id : Z) (value : Value)
| Identifier (id : Z) (name : string)
| Other (id : Z).

Definition node_id (n : DslNode) : Z :=
  match n with
  | Block id _ _ | Assignment id _ _ | Array id _ | Function id _ _
  | Literal id _ | Identifier id _ | Other id => id
  end.

Definition shape_of (n : DslNode) : Shape :=
  match n with
  | Block _ _ _ => ShBlock
  | Assignment _ _ _ => ShAssignment
  | Array _ _ => ShArray
  | Function _ _ _ => ShFunction
  | Literal _ _ => ShLiteral
  | Identifier _ _ => ShIdentifier
  | Other _ => ShOther
  end.

(** The root object handed to [run]: its [shape] (if any), [nodes] and
    [bindings]. *)
Record Ast : Type := mkAst {
  ast_shape : Shape;
  ast_nodes : list DslNode;
  ast_bindings : gmap string Value
}.

(** ** Errors, state and the evaluation monad *)

(** The [Error]s the handlers throw, by message:
    - [TypeMismatch id]: literalHandler(): node id not type number
    - [InvalidPosition id]: assignmentRuleHandler: node id invalid parent
    - [NotAFunction id]: functionRuleHandler(): node id invalid operation:
      not type function error
    - [OperationError id e]: functionRuleHandler(): node id invalid
      operation: e
    and [TypeError], which is what a property read or written through a
    reference that addresses no object gives (see [State]). *)
Inductive Error : Type :=
| TypeMismatch (id : Z)
| InvalidPosition (id : Z)
| NotAFunction (id : Z)
| OperationError (id : Z) (cause : string)
| TypeError.

(** The store of bindings objects, addressed by position, and what was
    written with [console.error], oldest first. A bindings reference is a
    position in the store. JavaScript has no dangling references: every
    reference the runner holds addresses an object, and the statements
    about reads and writes below assume it of the reference they are
    given. *)
Record State : Type := mkState {
  scopes : list (gmap string Value);
  console : list Error
}.

Inductive Outcome (A : Type) : Type :=
| Returns (a : A)
| Raises (e : Error).
Arguments Returns {A} a.
Arguments Raises {A} e.

Definition M (A : Type) : Type := State -> State * Outcome A.

Definition ret {A : Type} (a : A) : M A :=
  fun st => (st, Returns a).

Definition throw {A : Type} (e : Error) : M A :=
  fun st => (st, Raises e).

Definition bind {A B : Type} (m : M A) (k : A -> M B) : M B :=
  fun st =>
    match m st with
    | (st', Returns a) => k a st'
    | (st', Raises e) => (st', Raises e)
    end.

Notation "'let*' x ':=' m 'in' k" := (bind m (fun x => k))
  (at level 10, x name, m at level 100, k at level 200).

Definition console_error (e : Error) (st : State) : State :=
  mkState (scopes st) (console st ++ [e]).

(** [try { body } catch (e) { console.error(e); return undefined; }] *)
Definition try_catch (body : M Value) : M Value :=
  fun st =>
    match body st with
    | (st', Returns v) => (st', Returns v)
    | (st', Raises e) => (console_error e st', Returns VUndef)
    end.

(** *** What a bindings object inherits

    A bindings object is written [{...}] or made by [Object.assign({},
    ...)], so its prototype is [Object.prototype]. These are the
    properties of [Object.prototype]: eleven functions and the accessor
    [__proto__]. *)

(** The handle of a built-in function: its source text. *)
Definition native (name : string) : hostfn :=
  "function " ++ name ++ "() { [native code] }".

Definition object_prototype_methods : list string :=
  [ "__defineGetter__"; "__defineSetter__"; "hasOwnProperty";
    "__lookupGetter__"; "__lookupSetter__"; "isPrototypeOf";
    "propertyIsEnumerable"; "toString"; "valueOf"; "toLocaleString" ].

(** What a name that is not an own property resolves to, if anything:
    the getter of [__proto__] gives the prototype, [constructor] is
    [Object], and the methods are themselves. *)
Definition inherited (k : string) : option Value :=
  if String.eqb k "__proto__" then Some VObjectPrototype
  else if String.eqb k "constructor" then Some (VFun (native "Object"))
  else if existsb (String.eqb k) object_prototype_methods
       then Some (VFun (native k))
  else None.

(** [o[k]], for an object with the own properties [o]. *)
Definition lookup_prop (o : gmap string Value) (k : string) : Value :=
  match o !! k with
  | Some v => v
  | None => default VUndef (inherited k)
  end.

(** The own properties after [o[k] = v]: [v] becomes the own property
    [k], except that [__proto__], unless it is an own property already,
    goes to the setter inherited from [Object.prototype], which creates
    no property. *)
Definition assign_prop (o : gmap string Value) (k : string) (v : Value)
    : gmap string Value :=
  match o !! k, String.eqb k "__proto__" with
  | None, true => o
  | _, _ => <[k := v]> o
  end.

(** [b[k]] *)
Definition get_prop (b : nat) (k : string) : M Value :=
  fun st =>
    match scopes st !! b with
    | Some o => (st, Returns (lookup_prop o k))
    | None => (st, Raises TypeError)
    end.

(** [b[k] = v] *)
Definition set_prop (b : nat) (k : string) (v : Value) : M unit :=
  fun st =>
    match scopes st !! b with
    | Some o => (mkState (<[b := assign_prop o k v]> (scopes st)) (console st),
                 Returns tt)
    | None => (st, Raises TypeError)
    end.

(** [Object.assign({}, pB, own)]: a new object with the properties of [pB]
    overwritten by those of [own]. *)
Definition object_assign (pB : nat) (own : gmap string Value) : M nat :=
  fun st =>
    (mkState (scopes st ++ [own ∪ default ∅ (scopes st !! pB)]) (console st),
     Returns (length (scopes st))).

(** ** The scenario's host function

    [(x, y) => x + y] on the values above: numbers add, [undefined] counts
    as [NaN], and as soon as an operand is a string, a function or an array
    both operands are converted to strings and concatenated. *)

Definition num_add (a b : number) : number :=
  match a, b with
  | Int x, Int y => Int (x + y)
  | _, _ => NaN
  end.

Fixpoint to_string (v : Value) : string :=
  match v with
  | VUndef => "undefined"
  | VNum (Int z) => pretty z
  | VNum NaN => "NaN"
  | VStr s => s
  | VFun f => f
  | VObjectPrototype => "[object Object]"
  | VArr elems =>
      (fix join (l : list Value) : string :=
         match l with
         | [] => ""
         | x :: rest =>
             (if defined x then to_string x else "") ++
             match rest with
             | [] => ""
             | _ :: _ => "," ++ join rest
             end
         end) elems
  end.

Definition to_number (v : Value) : option number :=
  match v with
  | VNum n => Some n
  | VUndef => Some NaN
  | _ => None
  end.

Definition js_plus (x y : Value) : Value :=
  match to_number x, to_number y with
  | Some a, Some b => VNum (num_add a b)
  | _, _ => VStr (to_string x ++ to_string y)
  end.

Definition add_src : hostfn := "(x,y)=>x+y".

(** The host of the scenarios: [add_src] is the addition above and
    [native "toString"] is [Object.prototype.toString], which called
    without a receiver returns the tag of [undefined]. The scenarios call
    no other function; every other handle is given an empty body. *)
Definition scenario_host (f : hostfn) (x y : Value) : HostResult :=
  if String.eqb f add_src then HostReturns (js_plus x y)
  else if String.eqb f (native "toString")
       then HostReturns (VStr "[object Undefined]")
  else HostReturns VUndef.

(** ** The rule handlers *)

Section Runner.

(** What each host function does when called with two arguments. *)
Variable apply_host : hostfn -> Value -> Value -> HostResult.

Section RuleHandlers.

(** The handlers are nested in [dslRuleHandler] and call it on the
    nodes below them; here it is the variable [dsl], tied below. *)
Variable dsl : DslNode -> Shape -> nat -> M Value.

Definition literalRuleHandler (id : Z) (value : Value) : M Value :=
  if is_number value then ret value
  else throw (TypeMismatch id).

Definition identifierRuleHandler (name : string) (b : nat) : M Value :=
  get_prop b name.

Definition assignmentRuleHandler
    (id : Z) (name : string) (rhs : DslNode) (pN : Shape) (b : nat)
    : M Value :=
  match pN with
  | ShBlock =>
      let* value := dsl rhs ShAssignment b in
      let* _ := (if defined value then set_prop b name value
                 else ret tt) in
      get_prop b name
  | _ => throw (InvalidPosition id)
  end.

(** [for (i ...) { args[i] = dslRuleHandler(args[i], N, B); }] *)
Fixpoint argsLoop (B : nat) (args : list DslNode) {struct args}
    : M (list Value) :=
  match args with
  | [] => ret []
  | cN :: rest =>
      let* v := dsl cN ShFunction B in
      let* vs := argsLoop B rest in
      ret (v :: vs)
  end.

Definition executeCalleeAndArgs
    (callee : string) (args : list DslNode) (B : nat)
    : M (string * list Value) :=
  let* args' := argsLoop B args in
  ret (callee, args').

Definition functionRuleHandler
    (id : Z) (callee : string) (args : list DslNode) (b : nat)
    : M Value :=
  let* parameters := executeCalleeAndArgs callee args b in
  let callee := fst parameters in
  let args := snd parameters in
  let* operation := get_prop b callee in
  match operation with
  | VFun f =>
      match apply_host f (nth 0 args VUndef) (nth 1 args VUndef) with
      | HostReturns r => ret r
      | HostThrows e => throw (OperationError id e)
      end
  | _ => throw (NotAFunction id)
  end.

(** [for (i ...) { value = dslRuleHandler(n[i], pN, cB);
                  if (value !== undefined) rB = value; } return rB;] *)
Fixpoint blockLoop (cB : nat) (n : list DslNode) (rB : Value) {struct n}
    : M Value :=
  match n with
  | [] => ret rB
  | childNode :: rest =>
      let* value := dsl childNode ShBlock cB in
      blockLoop cB rest (if defined value then value else rB)
  end.

Definition blockRuleHandler
    (nodes : list DslNode) (bindings : gmap string Value) (pB : nat)
    : M Value :=
  let* cB := object_assign pB bindings in
  blockLoop cB nodes (VNum (Int 0)).

(** [for (i ...) { value = dslRuleHandler(n[i], pN, b);
                  if (value !== undefined) r.push(value); } return r;] *)
Fixpoint arrayLoop (b : nat) (n : list DslNode) (r : list Value)
    {struct n} : M (list Value) :=
  match n with
  | [] => ret r
  | childNode :: rest =>
      let* value := dsl childNode ShArray b in
      arrayLoop b rest (if defined value then r ++ [value] else r)
  end.

Definition arrayRuleHandler (nodes : list DslNode) (b : nat) : M Value :=
  let* r := arrayLoop b nodes [] in
  ret (VArr r).

End RuleHandlers.

(** The [switch (node.shape)] inside the [try]; [dsl] is what the
    handlers call on the nodes below. *)
Definition dispatch (dsl : DslNode -> Shape -> nat -> M Value)
    (node : DslNode) (parentNode : Shape) (bindings : nat) : M Value :=
  match node with
  | Block _ nodes own => blockRuleHandler dsl nodes own bindings
  | Assignment id name rhs =>
      assignmentRuleHandler dsl id name rhs parentNode bindings
  | Array _ nodes => arrayRuleHandler dsl nodes bindings
  | Function id callee args =>
      functionRuleHandler dsl id callee args bindings
  | Literal id value => literalRuleHandler id value
  | Identifier _ name => identifierRuleHandler name bindings
  | Other _ => ret VUndef
  end.

(** [dslRuleHandler(node, parentNode, bindings)]; of [parentNode] the
    handlers read [shape] only, and [bindings] is a reference into the
    store. *)
Fixpoint dslRuleHandler (node : DslNode) (parentNode : Shape)
    (bindings : nat) {struct node} : M Value :=
  try_catch (dispatch dslRuleHandler node parentNode bindings).

(** [for (i ...) { value = dslRuleHandler(childNode, ast, parentBindings);
                  if (interestIds.includes(id) && value !== undefined)
                    rMap[id] = value; } return rMap;]
    with [ast] passed as its shape. *)
Fixpoint runLoop (ast : Shape) (parentBindings : nat)
    (interestIds : list Z) (parentNodes : list DslNode)
    (rMap : gmap Z Value) {struct parentNodes} : M (gmap Z Value) :=
  match parentNodes with
  | [] => ret rMap
  | childNode :: rest =>
      let* value := dslRuleHandler childNode ast parentBindings in
      let id := node_id childNode in
      runLoop ast parentBindings interestIds rest
        (if bool_decide (id ∈ interestIds) && defined value
         then <[id := value]> rMap else rMap)
  end.

(** [run(ast, interestIds)], started in the store that holds just
    [ast.bindings] and with nothing logged. *)
Definition run (ast : Ast) (interestIds : list Z)
    : State * Outcome (gmap Z Value) :=
  runLoop (ast_shape ast) 0%nat interestIds (ast_nodes ast) ∅
    (mkState [ast_bindings ast] []).

(** The values that the nodes of a list produce when they are evaluated
    one after the other, first to last, as children of a node of shape
    [p] with the bindings reference [b]. The loops of the handlers above
    are compared with it. *)
Fixpoint evalInOrder (p : Shape) (b : nat) (nodes : list DslNode)
    {struct nodes} : M (list Value) :=
  match nodes with
  | [] => ret []
  | n :: rest =>
      let* v := dslRuleHandler n p b in
      let* vs := evalInOrder p b rest in
      ret (v :: vs)
  end.

End Runner.

(** The last defined value of a list of results, [d] when there is none. *)
Definition lastDefined (d : Value) (vals : list Value) : Value :=
  List.last (List.filter defined vals) d.

(** [st'] has every bindings object of [st], and those at the references
    in [K] are the same as in [st]. *)
Definition extends (K : nat -> Prop) (st st' : State) : Prop :=
  (length (scopes st) <= length (scopes st'))%nat /\
  forall l, (l < length (scopes st))%nat -> K l ->
            scopes st' !! l = scopes st !! l.

(** [n] is an Assignment to the name [x]. *)
Definition assigns (x : string) (n : DslNode) : Prop :=
  match n with
  | Assignment _ y _ => y = x
  | _ => False
  end.

(** ** The programs of the scenarios *)

(** The top-level nodes of the end-to-end scenario; [i1], [i2] and [i3]
    are the ids of the three inner nodes, which the scenario leaves out. *)
Definition scenario_nodes (i1 i2 i3 : Z) : list DslNode :=
  [ Assignment 1 "a" (Literal i1 (VNum (Int 2)));
    Function 2 "add" [Identifier i2 "a"; Literal i3 (VNum (Int 3))] ].

(** The scenario's program as written, a root object without [shape]... *)
Definition scenario_ast : Ast :=
  mkAst ShOther (scenario_nodes 0 0 0) {[ "add" := VFun add_src ]}.

(** ... and the same program with a root of shape Block. *)
Definition scenario_block_ast : Ast :=
  mkAst ShBlock (scenario_nodes 0 0 0) {[ "add" := VFun add_src ]}.

(** A store with one scope, in which [a] is bound to 1. *)
Definition scope_with_a : State :=
  mkState [ {[ "a" := VNum (Int 1) ]} ] [].

(** A store with one scope, in which [add] is the scenario's function. *)
Definition scope_with_add : State :=
  mkState [ {[ "add" := VFun add_src ]} ] [].

(** A store with one empty scope. *)
Definition empty_scope : State :=
  mkState [ ∅ ] [].

(** ** The mapping [run] builds, apart from the evaluation *)

(** What the loop of [run] does to [rMap] once the values of the
    top-level nodes are known: [vals] holds the value of each node of
    [nodes], in order. *)
Fixpoint collect (interestIds : list Z) (nodes : list DslNode)
    (vals : list Value) (rMap : gmap Z Value) {struct nodes}
    : gmap Z Value :=
  match nodes, vals with
  | childNode :: nodes', value :: vals' =>
      collect interestIds nodes' vals'
        (if bool_decide (node_id childNode ∈ interestIds) && defined value
         then <[node_id childNode := value]> rMap else rMap)
  | _, _ => rMap
  end.

(** The value of the last node with the id [id] that produced a defined
    value, if there is one. *)
Definition reported (id : Z) (nodes : list DslNode) (vals : list Value)
    : option Value :=
  last (List.map snd
          (List.filter (fun nv => Z.eqb (node_id (fst nv)) id &&
                                  defined (snd nv))
                       (combine nodes vals))).

(** * Properties *)

(** ** Induction on nodes, through the lists of children *)

Lemma DslNode_nested_ind (P : DslNode -> Prop) :
  (forall id nodes own, Forall P nodes -> P (Block id nodes own)) ->
  (forall id name rhs, P rhs -> P (Assignment id name rhs)) ->
  (forall id nodes, Forall P nodes -> P (Array id nodes)) ->
  (forall id callee args, Forall P args -> P (Function id callee args)) ->
  (forall id v, P (Literal id v)) ->
  (forall id x, P (Identifier id x)) ->
  (forall id, P (Other id)) ->
  forall n, P n.
Proof.
  intros HB HA HR HF HL HI HO.
  fix IH 1.
  intros [id nodes own | id name rhs | id nodes | id callee args
         | id v | id x | id].
  - apply HB. revert nodes. fix IHl 1.
    intros [| c r]; constructor; [apply IH | apply IHl].
  - apply HA, IH.
  - apply HR. revert nodes. fix IHl 1.
    intros [| c r]; constructor; [apply IH | apply IHl].
  - apply HF. revert args. fix IHl 1.
    intros [| c r]; constructor; [apply IH | apply IHl].
  - apply HL.
  - apply HI.
  - apply HO.
Qed.

(** ** The monad *)

Lemma bind_returns {A B : Type} (m : M A) (k : A -> M B) st st1 a :
  m st = (st1, Returns a) -> bind m k st = k a st1.
Proof. intros E. unfold bind. now rewrite E. Qed.

Lemma bind_raises {A B : Type} (m : M A) (k : A -> M B) st st1 e :
  m st = (st1, Raises e) -> bind m k st = (st1, Raises e).
Proof. intros E. unfold bind. now rewrite E. Qed.

Lemma try_catch_returns body st :
  exists st' v, try_catch body st = (st', Returns v).
Proof.
  unfold try_catch. destruct (body st) as [st' [v | e]]; eauto.
Qed.

Lemma try_catch_scopes body st :
  scopes (try_catch body st).1 = scopes (body st).1.
Proof.
  unfold try_catch. now destruct (body st) as [st' [v | e]].
Qed.

Lemma extends_refl K st : extends K st st.
Proof. split; auto. Qed.

Lemma extends_trans K st1 st2 st3 :
  extends K st1 st2 -> extends K st2 st3 -> extends K st1 st3.
Proof.
  intros [L1 H1] [L2 H2]. split; [lia |].
  intros l Hl HK. rewrite H2 by (auto; lia). now apply H1.
Qed.

Lemma extends_weaken (K K' : nat -> Prop) st st' :
  (forall l, K' l -> K l) -> extends K st st' -> extends K' st st'.
Proof. intros HK [L H]. split; auto. Qed.

Lemma extends_try_catch K st body :
  extends K st (body st).1 -> extends K st (try_catch body st).1.
Proof.
  unfold extends. now rewrite try_catch_scopes.
Qed.

Lemma extends_same_scopes K st st' :
  scopes st' = scopes st -> extends K st st'.
Proof. intros E. split; rewrite E; auto. Qed.

Lemma last_cons_default (a d : Value) (l : list Value) :
  List.last (a :: l) d = List.last l a.
Proof.
  revert a d. induction l as [| x l IH]; intros a d; [reflexivity |].
  change (List.last (a :: x :: l) d) with (List.last (x :: l) d).
  now rewrite (IH x d), (IH x a).
Qed.

Lemma lastDefined_cons d v vals :
  lastDefined d (v :: vals) = lastDefined (if defined v then v else d) vals.
Proof.
  unfold lastDefined. simpl. destruct (defined v); [| reflexivity].
  apply last_cons_default.
Qed.

Lemma lastDefined_defined d vals :
  defined d = true -> defined (lastDefined d vals) = true.
Proof.
  revert d. induction vals as [| v vals IH]; intros d Hd; [exact Hd |].
  rewrite lastDefined_cons. apply IH. now destruct (defined v) eqn:E.
Qed.

Lemma lastDefined_snoc d vals v :
  defined v = true -> lastDefined d (vals ++ [v]) = v.
Proof.
  intros Hv. unfold lastDefined. rewrite List.filter_app. simpl.
  rewrite Hv. apply List.last_last.
Qed.

Lemma lastDefined_none d vals :
  forallb (fun v => negb (defined v)) vals = true -> lastDefined d vals = d.
Proof.
  induction vals as [| v vals IH]; [reflexivity |]. simpl.
  intros [Hv Hr]%andb_prop. rewrite lastDefined_cons.
  destruct (defined v); [discriminate | auto].
Qed.

(** ** Properties of objects *)

Lemma assign_prop_plain o k v :
  k <> "__proto__" -> assign_prop o k v = <[k := v]> o.
Proof.
  intros Hk. unfold assign_prop. destruct (o !! k); [reflexivity |].
  destruct (String.eqb_spec k "__proto__"); [contradiction | reflexivity].
Qed.

Lemma assign_prop_other o k v x :
  k <> x -> assign_prop o k v !! x = o !! x.
Proof.
  intros Hk. unfold assign_prop.
  destruct (o !! k), (String.eqb k "__proto__");
    try reflexivity; now apply lookup_insert_ne.
Qed.

Lemma lookup_prop_insert o k v : lookup_prop (<[k := v]> o) k = v.
Proof. unfold lookup_prop. now rewrite lookup_insert_eq. Qed.

Lemma lookup_prop_own o k v : o !! k = Some v -> lookup_prop o k = v.
Proof. unfold lookup_prop. now intros ->. Qed.


(** ** The evaluator *)

Section RunnerFacts.

Variable apply_host : hostfn -> Value -> Value -> HostResult.

Abbreviation dsl := (dslRuleHandler apply_host).
Abbreviation inOrder := (evalInOrder apply_host).

Lemma dslRuleHandler_unfold n p b :
  dsl n p b = try_catch (dispatch apply_host dsl n p b).
Proof. now destruct n. Qed.

Lemma dslRuleHandler_returns n p b st :
  exists st' v, dsl n p b st = (st', Returns v).
Proof. rewrite dslRuleHandler_unfold. apply try_catch_returns. Qed.

Lemma evalInOrder_cons p b n rest st st1 v st2 vs :
  dsl n p b st = (st1, Returns v) ->
  inOrder p b rest st1 = (st2, Returns vs) ->
  inOrder p b (n :: rest) st = (st2, Returns (v :: vs)).
Proof.
  intros E1 E2. simpl.
  rewrite (bind_returns _ _ _ _ _ E1), (bind_returns _ _ _ _ _ E2).
  reflexivity.
Qed.

Lemma evalInOrder_returns p b nodes st :
  exists st' vals,
    inOrder p b nodes st = (st', Returns vals) /\
    length vals = length nodes.
Proof.
  revert st. induction nodes as [| n rest IH]; intros st.
  - exists st, []. now split.
  - destruct (dslRuleHandler_returns n p b st) as (st1 & v & E1).
    destruct (IH st1) as (st2 & vs & E2 & L).
    exists st2, (v :: vs). split.
    + eapply evalInOrder_cons; eauto.
    + simpl. now rewrite L.
Qed.

(** The three loops of the handlers, through [evalInOrder]. *)

Lemma argsLoop_inOrder b args st :
  argsLoop dsl b args st = inOrder ShFunction b args st.
Proof.
  revert st. induction args as [| n rest IH]; intros st; [reflexivity |].
  simpl. unfold bind. destruct (dsl n ShFunction b st) as [st1 [v | e]];
    [| reflexivity].
  now rewrite IH.
Qed.

Lemma blockLoop_inOrder cB nodes rB st st' vals :
  inOrder ShBlock cB nodes st = (st', Returns vals) ->
  blockLoop dsl cB nodes rB st = (st', Returns (lastDefined rB vals)).
Proof.
  revert rB st vals. induction nodes as [| n rest IH]; intros rB st vals.
  - simpl. unfold ret. now intros [= <- <-].
  - destruct (dslRuleHandler_returns n ShBlock cB st) as (st1 & v & E1).
    destruct (evalInOrder_returns ShBlock cB rest st1) as (st2 & vs & E2 & _).
    rewrite (evalInOrder_cons _ _ _ _ _ _ _ _ _ E1 E2). intros [= <- <-].
    simpl. rewrite (bind_returns _ _ _ _ _ E1), lastDefined_cons.
    now apply IH.
Qed.

Lemma arrayLoop_inOrder b nodes r st st' vals :
  inOrder ShArray b nodes st = (st', Returns vals) ->
  arrayLoop dsl b nodes r st =
    (st', Returns (r ++ List.filter defined vals)%list).
Proof.
  revert r st vals. induction nodes as [| n rest IH]; intros r st vals.
  - simpl. unfold ret. intros [= <- <-]. simpl. now rewrite app_nil_r.
  - destruct (dslRuleHandler_returns n ShArray b st) as (st1 & v & E1).
    destruct (evalInOrder_returns ShArray b rest st1) as (st2 & vs & E2 & _).
    rewrite (evalInOrder_cons _ _ _ _ _ _ _ _ _ E1 E2). intros [= <- <-].
    simpl. rewrite (bind_returns _ _ _ _ _ E1), (IH _ _ _ E2).
    destruct (defined v); [| reflexivity].
    now rewrite <- app_assoc.
Qed.

(** The handlers of the shapes with children, in one step. *)

Lemma blockRuleHandler_eq nodes own pB st :
  exists st' vals,
    inOrder ShBlock (length (scopes st)) nodes
      (mkState (scopes st ++ [own ∪ default ∅ (scopes st !! pB)])
               (console st)) = (st', Returns vals) /\
    blockRuleHandler dsl nodes own pB st =
      (st', Returns (lastDefined (VNum (Int 0)) vals)).
Proof.
  destruct (evalInOrder_returns ShBlock (length (scopes st)) nodes
              (mkState (scopes st ++ [own ∪ default ∅ (scopes st !! pB)])
                       (console st))) as (st' & vals & E & _).
  exists st', vals. split; [exact E |].
  unfold blockRuleHandler, bind, object_assign.
  now apply blockLoop_inOrder.
Qed.

Lemma arrayRuleHandler_eq nodes b st :
  exists st' vals,
    inOrder ShArray b nodes st = (st', Returns vals) /\
    arrayRuleHandler dsl nodes b st =
      (st', Returns (VArr (List.filter defined vals))).
Proof.
  destruct (evalInOrder_returns ShArray b nodes st) as (st' & vals & E & _).
  exists st', vals. split; [exact E |].
  unfold arrayRuleHandler.
  now rewrite (bind_returns _ _ _ _ _ (arrayLoop_inOrder _ _ [] _ _ _ E)).
Qed.

Lemma functionRuleHandler_eq id callee args b st :
  exists st' vals,
    inOrder ShFunction b args st = (st', Returns vals) /\
    length vals = length args /\
    functionRuleHandler apply_host dsl id callee args b st =
      bind (get_prop b callee)
        (fun operation =>
           match operation with
           | VFun f =>
               match apply_host f (nth 0 vals VUndef) (nth 1 vals VUndef)
               with
               | HostReturns r => ret r
               | HostThrows e => throw (OperationError id e)
               end
           | _ => throw (NotAFunction id)
           end) st'.
Proof.
  destruct (evalInOrder_returns ShFunction b args st) as (st' & vals & E & L).
  exists st', vals. split; [exact E |]. split; [exact L |].
  unfold functionRuleHandler, executeCalleeAndArgs.
  rewrite <- argsLoop_inOrder in E.
  unfold bind at 1 2. rewrite E. reflexivity.
Qed.

(** *** What an evaluation leaves alone

    Evaluating a node never removes a bindings object, and it changes
    none of those that exist, with one exception: an Assignment that
    is the direct child of a Block writes to the object it is given. *)

Lemma evalInOrder_frame p b nodes :
  Forall (fun n => forall p b st,
            extends (fun l => l <> b \/ p <> ShBlock \/
                              shape_of n <> ShAssignment)
                    st (dsl n p b st).1) nodes ->
  forall st,
    extends (fun l => l <> b \/ p <> ShBlock) st (inOrder p b nodes st).1.
Proof.
  induction 1 as [| n rest Hn _ IH]; intros st.
  - apply extends_refl.
  - destruct (dslRuleHandler_returns n p b st) as (st1 & v & E1).
    destruct (evalInOrder_returns p b rest st1) as (st2 & vs & E2 & _).
    rewrite (evalInOrder_cons _ _ _ _ _ _ _ _ _ E1 E2). simpl.
    specialize (Hn p b st). rewrite E1 in Hn.
    specialize (IH st1). rewrite E2 in IH.
    eapply extends_trans; [| exact IH].
    eapply extends_weaken; [| exact Hn]. simpl. tauto.
Qed.

Lemma dslRuleHandler_frame n :
  forall p b st,
    extends (fun l => l <> b \/ p <> ShBlock \/ shape_of n <> ShAssignment)
            st (dsl n p b st).1.
Proof.
  induction n as [id nodes own IH | id name rhs IH | id nodes IH
                 | id callee args IH | id v | id x | id]
    using DslNode_nested_ind; intros p b st;
    rewrite dslRuleHandler_unfold; apply extends_try_catch; simpl.
  - destruct (blockRuleHandler_eq nodes own b st) as (st' & vals & E & ->).
    simpl.
    pose proof (evalInOrder_frame ShBlock (length (scopes st)) nodes IH
                  (mkState (scopes st ++ [own ∪ default ∅ (scopes st !! b)])
                           (console st))) as [L H].
    rewrite E in L, H. simpl in L, H. rewrite length_app in L. simpl in L.
    split; [lia |]. intros l Hl _.
    rewrite H by (rewrite ?length_app; simpl; lia).
    now apply lookup_app_l.
  - unfold assignmentRuleHandler.
    destruct p; try apply extends_refl.
    destruct (dslRuleHandler_returns rhs ShAssignment b st) as (st1 & v & E1).
    specialize (IH ShAssignment b st). rewrite E1 in IH. simpl in IH.
    rewrite (bind_returns _ _ _ _ _ E1).
    assert (extends (fun l => l <> b) st st1) as H1.
    { eapply extends_weaken; [| exact IH]. simpl. intros l _. right. left.
      discriminate. }
    unfold bind, set_prop, get_prop, ret.
    destruct (defined v); simpl;
      destruct (scopes st1 !! b) as [o |] eqn:Eb; simpl; rewrite ?Eb;
      simpl; try (eapply extends_weaken; [| exact H1]; simpl; tauto).
    rewrite list_lookup_insert_eq by (eapply lookup_lt_Some; eauto). simpl.
    destruct H1 as [L1 H1]. split; simpl.
    + now rewrite length_insert.
    + intros l Hl [Hne | [Hp | Hs]]; try congruence.
      rewrite list_lookup_insert_ne by congruence. now apply H1.
  - destruct (arrayRuleHandler_eq nodes b st) as (st' & vals & E & ->).
    simpl.
    pose proof (evalInOrder_frame ShArray b nodes IH st) as H.
    rewrite E in H. simpl in H.
    eapply extends_weaken; [| exact H]. simpl. intros l _. right.
    discriminate.
  - destruct (functionRuleHandler_eq id callee args b st)
      as (st' & vals & E & _ & ->).
    pose proof (evalInOrder_frame ShFunction b args IH st) as H.
    rewrite E in H. simpl in H.
    assert (extends (fun l => l <> b \/ p <> ShBlock \/
                              ShFunction <> ShAssignment) st st') as H'.
    { eapply extends_weaken; [| exact H]. simpl. intros l _. right.
      discriminate. }
    unfold bind, get_prop.
    destruct (scopes st' !! b) as [o |]; simpl; [| exact H'].
    destruct (lookup_prop o callee); simpl; try exact H'.
    destruct (apply_host _ _ _); exact H'.
  - unfold literalRuleHandler. destruct (is_number v); apply extends_refl.
  - unfold identifierRuleHandler, get_prop.
    destruct (scopes st !! b); apply extends_refl.
  - apply extends_refl.
Qed.

(** Apart from an Assignment directly in a Block, a node changes no
    bindings object at all. *)
Lemma dslRuleHandler_keeps n p b st l :
  p <> ShBlock \/ shape_of n <> ShAssignment ->
  (l < length (scopes st))%nat ->
  scopes (dsl n p b st).1 !! l = scopes st !! l.
Proof.
  intros Hk Hl. destruct (dslRuleHandler_frame n p b st) as [_ H].
  apply H; [exact Hl | tauto].
Qed.

Lemma evalInOrder_keeps p b nodes st l :
  p <> ShBlock ->
  (l < length (scopes st))%nat ->
  scopes (inOrder p b nodes st).1 !! l = scopes st !! l.
Proof.
  intros Hp Hl.
  destruct (evalInOrder_frame p b nodes) with (st := st) as [_ H].
  - apply Forall_forall. intros n _. apply dslRuleHandler_frame.
  - apply H; [exact Hl | tauto].
Qed.

Lemma evalInOrder_app p b l1 l2 st st1 v1 st2 v2 :
  inOrder p b l1 st = (st1, Returns v1) ->
  inOrder p b l2 st1 = (st2, Returns v2) ->
  inOrder p b (l1 ++ l2) st = (st2, Returns (v1 ++ v2)%list).
Proof.
  revert st v1. induction l1 as [| n rest IH]; intros st v1 E1 E2.
  - simpl in E1. unfold ret in E1. injection E1 as <- <-. exact E2.
  - destruct (dslRuleHandler_returns n p b st) as (sa & v & Ea).
    destruct (evalInOrder_returns p b rest sa) as (sb & vs & Eb & _).
    rewrite (evalInOrder_cons _ _ _ _ _ _ _ _ _ Ea Eb) in E1.
    injection E1 as <- <-.
    change ((n :: rest) ++ l2)%list with (n :: (rest ++ l2))%list.
    change ((v :: vs) ++ v2)%list with (v :: (vs ++ v2))%list.
    eapply evalInOrder_cons; eauto.
Qed.

Lemma runLoop_returns sh b ids nodes rMap st :
  exists st' rMap', runLoop apply_host sh b ids nodes rMap st =
                    (st', Returns rMap').
Proof.
  revert rMap st. induction nodes as [| n rest IH]; intros rMap st.
  - now exists st, rMap.
  - destruct (dslRuleHandler_returns n sh b st) as (st1 & v & E1).
    simpl. rewrite (bind_returns _ _ _ _ _ E1). apply IH.
Qed.

(** *** Literals *)

(** C9: a Literal node whose value is a number evaluates to exactly that
    value, with nothing logged; for any other value the literal handler
    throws the "not type number" error (TypeMismatch), the dispatcher
    appends it to the diagnostics, leaving the bindings alone, and the
    node's result is [undefined]. *)
Theorem literal_number_or_no_value id v p b st :
  literalRuleHandler id v st =
    (if is_number v then (st, Returns v)
     else (st, Raises (TypeMismatch id))) /\
  dsl (Literal id v) p b st =
    (if is_number v then (st, Returns v)
     else (mkState (scopes st) (console st ++ [TypeMismatch id]),
           Returns VUndef)).
Proof.
  rewrite dslRuleHandler_unfold. unfold try_catch. simpl.
  unfold literalRuleHandler. now destruct (is_number v).
Qed.

(** *** Assignments *)

(** C5: an Assignment whose parent is not a Block throws the "invalid
    parent" error (InvalidPosition) before anything is evaluated; the
    dispatcher logs it and returns [undefined] instead of raising, and
    no bindings object changes. As a function argument it is the
    [undefined] argument, as an array element it is dropped. *)
Theorem assignment_outside_block id name rhs p b st :
  p <> ShBlock ->
  assignmentRuleHandler dsl id name rhs p b st =
    (st, Raises (InvalidPosition id)) /\
  dsl (Assignment id name rhs) p b st =
    (console_error (InvalidPosition id) st, Returns VUndef) /\
  scopes (dsl (Assignment id name rhs) p b st).1 = scopes st /\
  (forall rest,
     inOrder ShFunction b (Assignment id name rhs :: rest) st =
     bind (inOrder ShFunction b rest) (fun vs => ret (VUndef :: vs))
          (console_error (InvalidPosition id) st)) /\
  (forall rest r,
     arrayLoop dsl b (Assignment id name rhs :: rest) r st =
     arrayLoop dsl b rest r (console_error (InvalidPosition id) st)).
Proof.
  intros Hp.
  assert (forall q, q <> ShBlock ->
            dsl (Assignment id name rhs) q b st =
            (console_error (InvalidPosition id) st, Returns VUndef)) as H.
  { intros q Hq. rewrite dslRuleHandler_unfold. unfold try_catch. simpl.
    now destruct q. }
  split; [| split; [| split; [| split]]].
  - now destruct p.
  - now apply H.
  - now rewrite H.
  - intros rest. change (inOrder ShFunction b (?n :: rest)) with
      (bind (dsl n ShFunction b)
         (fun v => bind (inOrder ShFunction b rest)
                     (fun vs => ret (v :: vs)))).
    now rewrite (bind_returns _ _ _ _ _ (H ShFunction ltac:(discriminate))).
  - intros rest r. change (arrayLoop dsl b (?n :: rest) r) with
      (bind (dsl n ShArray b)
         (fun value => arrayLoop dsl b rest
                         (if defined value then r ++ [value] else r)%list)).
    now rewrite (bind_returns _ _ _ _ _ (H ShArray ltac:(discriminate))).
Qed.


(** An Assignment directly in a Block, once its right-hand side has
    been evaluated to [v] and left the current scope as [o]. *)
Lemma assignment_block_step id name rhs b st st1 v o :
  dsl rhs ShAssignment b st = (st1, Returns v) ->
  scopes st1 !! b = Some o ->
  dsl (Assignment id name rhs) ShBlock b st =
    if defined v
    then (mkState (<[b := assign_prop o name v]> (scopes st1)) (console st1),
          Returns (lookup_prop (assign_prop o name v) name))
    else (st1, Returns (lookup_prop o name)).
Proof.
  intros E1 Eb. rewrite dslRuleHandler_unfold. unfold try_catch. simpl.
  unfold assignmentRuleHandler. rewrite (bind_returns _ _ _ _ _ E1).
  unfold bind, set_prop, get_prop, ret.
  destruct (defined v); simpl; rewrite Eb; simpl; [| reflexivity].
  now rewrite list_lookup_insert_eq by (eapply lookup_lt_Some; eauto).
Qed.

(** ... and when it binds: the name is not [__proto__] and [v] is
    defined. *)
Lemma assignment_block_binds id name rhs b st st1 v o :
  dsl rhs ShAssignment b st = (st1, Returns v) ->
  scopes st1 !! b = Some o ->
  name <> "__proto__" ->
  defined v = true ->
  dsl (Assignment id name rhs) ShBlock b st =
    (mkState (<[b := <[name := v]> o]> (scopes st1)) (console st1),
     Returns v).
Proof.
  intros E1 Eb Hn Hv.
  rewrite (assignment_block_step id name rhs b st st1 v o E1 Eb), Hv.
  now rewrite (assign_prop_plain o name v Hn), lookup_prop_insert.
Qed.

(** A node that is not an Assignment to [x] leaves what [x] is bound to
    in the current scope as it was. *)
Lemma dslRuleHandler_keeps_name n p b st o x :
  ~ assigns x n ->
  scopes st !! b = Some o ->
  exists o', scopes (dsl n p b st).1 !! b = Some o' /\ o' !! x = o !! x.
Proof.
  intros Hx Eb.
  assert (b < length (scopes st))%nat as Hb by (eapply lookup_lt_Some; eauto).
  assert (p <> ShBlock \/ shape_of n <> ShAssignment ->
          exists o', scopes (dsl n p b st).1 !! b = Some o' /\
                     o' !! x = o !! x) as Hkeep.
  { intros Hk. exists o. split; [| reflexivity]. rewrite <- Eb.
    now apply dslRuleHandler_keeps. }
  destruct n as [| id y rhs | | | | |];
    try (apply Hkeep; right; discriminate).
  destruct p; try (apply Hkeep; left; discriminate).
  simpl in Hx.
  destruct (dslRuleHandler_returns rhs ShAssignment b st) as (st1 & v & E1).
  assert (scopes st1 !! b = Some o) as Eb1.
  { rewrite <- Eb. change st1 with ((st1, Returns v).1). rewrite <- E1.
    apply dslRuleHandler_keeps; [left; discriminate | exact Hb]. }
  rewrite (assignment_block_step id y rhs b st st1 v o E1 Eb1).
  destruct (defined v); simpl.
  - exists (assign_prop o y v). split.
    + apply list_lookup_insert_eq. eapply lookup_lt_Some; eauto.
    + now apply assign_prop_other.
  - now exists o.
Qed.

Lemma evalInOrder_keeps_name p b nodes st o x :
  Forall (fun n => ~ assigns x n) nodes ->
  scopes st !! b = Some o ->
  exists o', scopes (inOrder p b nodes st).1 !! b = Some o' /\
             o' !! x = o !! x.
Proof.
  intros H. revert st o. induction H as [| n rest Hn _ IH]; intros st o Eb.
  - now exists o.
  - destruct (dslRuleHandler_returns n p b st) as (st1 & v & E1).
    destruct (evalInOrder_returns p b rest st1) as (st2 & vs & E2 & _).
    rewrite (evalInOrder_cons _ _ _ _ _ _ _ _ _ E1 E2). simpl.
    destruct (dslRuleHandler_keeps_name n p b st o x Hn Eb) as (o1 & Eo1 & X1).
    rewrite E1 in Eo1. simpl in Eo1.
    destruct (IH st1 o1 Eo1) as (o2 & Eo2 & X2).
    rewrite E2 in Eo2. simpl in Eo2.
    exists o2. split; [exact Eo2 | congruence].
Qed.


(** *** The failure boundary *)

(** C3: whatever the handler of a node throws is caught by the
    dispatcher invocation for that node: the error is logged and the
    node's result is [undefined]. So the dispatcher always returns, and
    [run] returns a mapping for every program. *)
Theorem failure_boundary n p b st :
  dsl n p b st =
    match dispatch apply_host dsl n p b st with
    | (st', Returns v) => (st', Returns v)
    | (st', Raises e) =>
        (mkState (scopes st') (console st' ++ [e]), Returns VUndef)
    end /\
  (exists st' v, dsl n p b st = (st', Returns v)) /\
  (forall ast ids,
     exists st' rMap, run apply_host ast ids = (st', Returns rMap)).
Proof.
  split; [| split].
  - now rewrite dslRuleHandler_unfold.
  - apply dslRuleHandler_returns.
  - intros ast ids. apply runLoop_returns.
Qed.

(** *** Blocks *)

(** A Block node through the dispatcher: its children are evaluated in
    order against the new child object, and nothing is thrown. *)
Lemma block_evaluates_children id nodes own p pB st :
  exists st' vals,
    inOrder ShBlock (length (scopes st)) nodes
      (mkState (scopes st ++ [own ∪ default ∅ (scopes st !! pB)])
               (console st)) = (st', Returns vals) /\
    length vals = length nodes /\
    dsl (Block id nodes own) p pB st =
      (st', Returns (lastDefined (VNum (Int 0)) vals)).
Proof.
  destruct (blockRuleHandler_eq nodes own pB st) as (st' & vals & E & D).
  exists st', vals. split; [exact E |]. split.
  - destruct (evalInOrder_returns ShBlock (length (scopes st)) nodes
                (mkState (scopes st ++ [own ∪ default ∅ (scopes st !! pB)])
                         (console st))) as (st2 & vals2 & E2 & L).
    rewrite E in E2. now injection E2 as <- <-.
  - rewrite dslRuleHandler_unfold. unfold try_catch. simpl. now rewrite D.
Qed.

(** C6: a Block evaluates its children in order in its child scope and
    returns the last defined value among their results; it returns 0,
    which is a defined value, when there are no children or when every
    child produced [undefined]. It never raises. *)
Theorem block_returns_last_defined id nodes own p pB st :
  exists st' vals,
    inOrder ShBlock (length (scopes st)) nodes
      (mkState (scopes st ++ [own ∪ default ∅ (scopes st !! pB)])
               (console st)) = (st', Returns vals) /\
    length vals = length nodes /\
    dsl (Block id nodes own) p pB st =
      (st', Returns (lastDefined (VNum (Int 0)) vals)) /\
    defined (lastDefined (VNum (Int 0)) vals) = true /\
    (forallb (fun v => negb (defined v)) vals = true ->
     lastDefined (VNum (Int 0)) vals = VNum (Int 0)).
Proof.
  destruct (block_evaluates_children id nodes own p pB st)
    as (st' & vals & E & L & D).
  exists st', vals.
  split; [exact E |]. split; [exact L |]. split; [exact D |]. split.
  - now apply lastDefined_defined.
  - apply lastDefined_none.
Qed.

(** *** Function calls *)

(** C7: when the callee's name is bound to a host function in the
    current scope, a Function node evaluates all its arguments in
    order with that same scope, which they leave as it was, and applies
    the function to the first and second results, [undefined] standing
    for a missing one; the function's result is the node's result. *)
Theorem function_applies_first_two id callee args p b st o f :
  scopes st !! b = Some o ->
  o !! callee = Some (VFun f) ->
  exists st' vals,
    inOrder ShFunction b args st = (st', Returns vals) /\
    length vals = length args /\
    scopes st' !! b = Some o /\
    dsl (Function id callee args) p b st =
      match apply_host f (nth 0 vals VUndef) (nth 1 vals VUndef) with
      | HostReturns r => (st', Returns r)
      | HostThrows e =>
          (console_error (OperationError id e) st', Returns VUndef)
      end.
Proof.
  intros Eb Ef.
  destruct (functionRuleHandler_eq id callee args b st)
    as (st' & vals & E & L & D).
  exists st', vals. split; [exact E |]. split; [exact L |].
  assert (scopes st' !! b = Some o) as Eb'.
  { rewrite <- Eb.
    change st' with ((st', @Returns (list Value) vals).1). rewrite <- E.
    apply evalInOrder_keeps; [discriminate |].
    eapply lookup_lt_Some; eauto. }
  split; [exact Eb' |].
  rewrite dslRuleHandler_unfold. unfold try_catch. simpl. rewrite D.
  unfold bind, get_prop. rewrite Eb', (lookup_prop_own _ _ _ Ef). simpl.
  now destruct (apply_host _ _ _).
Qed.

(** C8: when the callee's name does not resolve to a function in the
    current scope (it is bound to something else, or it is not bound
    and objects inherit no function under that name), the function
    handler evaluates the arguments and then throws the "not type
    function" error (NotAFunction) without calling anything; the
    dispatcher appends it to the diagnostics and the node's result is
    [undefined]. *)
Theorem function_not_invocable id callee args p b st o :
  scopes st !! b = Some o ->
  (forall f, lookup_prop o callee <> VFun f) ->
  exists st' vals,
    inOrder ShFunction b args st = (st', Returns vals) /\
    functionRuleHandler apply_host dsl id callee args b st =
      (st', Raises (NotAFunction id)) /\
    dsl (Function id callee args) p b st =
      (mkState (scopes st') (console st' ++ [NotAFunction id]),
       Returns VUndef).
Proof.
  intros Eb Hf.
  destruct (functionRuleHandler_eq id callee args b st)
    as (st' & vals & E & L & D).
  exists st', vals. split; [exact E |].
  assert (scopes st' !! b = Some o) as Eb'.
  { rewrite <- Eb.
    change st' with ((st', @Returns (list Value) vals).1). rewrite <- E.
    apply evalInOrder_keeps; [discriminate |].
    eapply lookup_lt_Some; eauto. }
  assert (functionRuleHandler apply_host dsl id callee args b st =
          (st', Raises (NotAFunction id))) as D'.
  { rewrite D. unfold bind, get_prop. rewrite Eb'.
    destruct (lookup_prop o callee) eqn:Ev; try reflexivity.
    now destruct (Hf f). }
  split; [exact D' |].
  rewrite dslRuleHandler_unfold. unfold try_catch. simpl. now rewrite D'.
Qed.


(** *** [undefined] as the no-value marker *)



(** *** The end-to-end scenario *)

(** C1 (as amended): when the root of the scenario's program has shape
    Block, and [add] is bound to a host function that maps 2 and 3 to
    5, [run] with interest ids [2] returns exactly the mapping
    {2: 5}. *)
Theorem scenario_with_block_root f i1 i2 i3 :
  apply_host f (VNum (Int 2)) (VNum (Int 3)) = HostReturns (VNum (Int 5)) ->
  (run apply_host
     (mkAst ShBlock (scenario_nodes i1 i2 i3) {[ "add" := VFun f ]})
     [2]).2 = Returns {[ 2 := VNum (Int 5) ]}.
Proof.
  intros Hadd. vm_compute. rewrite Hadd. reflexivity.
Qed.

End RunnerFacts.

(** * The scenarios *)

(** C1, on the host of the scenarios: the program with a Block root. *)
Lemma scenario_with_block_root_witness :
  scenario_host add_src (VNum (Int 2)) (VNum (Int 3)) =
    HostReturns (VNum (Int 5)) /\
  (run scenario_host scenario_block_ast [2]).2 =
    Returns {[ 2 := VNum (Int 5) ]}.
Proof.
  split; [reflexivity |].
  apply (scenario_with_block_root scenario_host add_src 0 0 0).
  reflexivity.
Defined.

(** C1, as the scenario is written: the root object has no [shape], so
    the top-level Assignment is rejected, [a] stays unbound, [add] is
    called with [undefined] and 3, and the mapping holds NaN for id 2. *)
Lemma scenario_without_root_shape :
  console (run scenario_host scenario_ast [2]).1 = [InvalidPosition 1] /\
  (run scenario_host scenario_ast [2]).2 = Returns {[ 2 := VNum NaN ]} /\
  (run scenario_host scenario_ast [2]).2 <> Returns {[ 2 := VNum (Int 5) ]}.
Proof.
  split; [reflexivity |]. split; [reflexivity |].
  intros H. apply (f_equal (fun r => match r with
                                     | Returns m => m !! 2
                                     | Raises _ => None
                                     end)) in H.
  vm_compute in H. discriminate H.
Qed.





(** A callee name that is not bound but inherited resolves to the
    inherited function, which is called: no diagnostic. *)
Lemma inherited_callee_is_called :
  dslRuleHandler scenario_host (Function 1 "toString" []) ShBlock 0
    empty_scope = (empty_scope, Returns (VStr "[object Undefined]")).
Proof. reflexivity. Qed.

Lemma assignment_outside_block_witness :
  ShFunction <> ShBlock /\
  dslRuleHandler scenario_host (Assignment 7 "x" (Literal 8 (VNum (Int 1))))
    ShFunction 0 empty_scope =
    (console_error (InvalidPosition 7) empty_scope, Returns VUndef).
Proof.
  split; [discriminate |].
  exact (proj1 (proj2 (assignment_outside_block scenario_host 7 "x"
                         (Literal 8 (VNum (Int 1))) ShFunction 0%nat
                         empty_scope ltac:(discriminate)))).
Defined.

Lemma block_returns_last_defined_witness :
  (dslRuleHandler scenario_host (Block 1 [Identifier 2 "x"; Other 3] ∅)
     ShOther 0 empty_scope).2 = Returns (VNum (Int 0)).
Proof.
  destruct (block_returns_last_defined scenario_host 1
              [Identifier 2 "x"; Other 3] ∅ ShOther 0%nat empty_scope)
    as (st' & vals & E & L & D & Hd & Hn).
  rewrite D. simpl. f_equal. apply Hn.
  vm_compute in E. injection E as _ <-. reflexivity.
Defined.

Lemma function_applies_first_two_witness :
  scopes scope_with_add !! 0%nat = Some {[ "add" := VFun add_src ]} /\
  ({[ "add" := VFun add_src ]} : gmap string Value) !! "add" =
    Some (VFun add_src) /\
  dslRuleHandler scenario_host
    (Function 2 "add" [Literal 3 (VNum (Int 1)); Literal 4 (VNum (Int 2));
                       Literal 5 (VNum (Int 9))])
    ShBlock 0 scope_with_add = (scope_with_add, Returns (VNum (Int 3))).
Proof.
  split; [reflexivity |]. split; [reflexivity |].
  destruct (function_applies_first_two scenario_host 2 "add"
              [Literal 3 (VNum (Int 1)); Literal 4 (VNum (Int 2));
               Literal 5 (VNum (Int 9))]
              ShBlock 0%nat scope_with_add {[ "add" := VFun add_src ]}
              add_src eq_refl eq_refl)
    as (st' & vals & E & L & S & D).
  rewrite D. vm_compute in E. injection E as <- <-. reflexivity.
Defined.

Lemma function_not_invocable_witness :
  scopes scope_with_a !! 0%nat = Some {[ "a" := VNum (Int 1) ]} /\
  (forall f, lookup_prop {[ "a" := VNum (Int 1) ]} "a" <> VFun f) /\
  dslRuleHandler scenario_host (Function 2 "a" [Literal 3 (VNum (Int 4))])
    ShBlock 0 scope_with_a =
    (mkState [ {[ "a" := VNum (Int 1) ]} ] [NotAFunction 2], Returns VUndef).
Proof.
  assert (forall f, lookup_prop {[ "a" := VNum (Int 1) ]} "a" <> VFun f)
    as Hf by (intros f; vm_compute; discriminate).
  split; [reflexivity |]. split; [exact Hf |].
  destruct (function_not_invocable scenario_host 2 "a"
              [Literal 3 (VNum (Int 4))] ShBlock 0%nat scope_with_a
              {[ "a" := VNum (Int 1) ]} eq_refl Hf)
    as (st' & vals & E & R & D).
  rewrite D. vm_compute in E. injection E as <- <-. reflexivity.
Defined.



(** * More of the runner *)

Lemma collect_lookup ids id nodes :
  forall vals rMap,
    collect ids nodes vals rMap !! id =
      if bool_decide (id ∈ ids)
      then match reported id nodes vals with
           | Some v => Some v
           | None => rMap !! id
           end
      else rMap !! id.
Proof.
  induction nodes as [| n nodes IH]; intros vals rMap.
  - simpl. unfold reported. simpl. now destruct (bool_decide (id ∈ ids)).
  - destruct vals as [| v vals].
    + simpl. unfold reported. simpl. now destruct (bool_decide (id ∈ ids)).
    + simpl. rewrite IH. unfold reported. simpl.
      destruct (bool_decide (id ∈ ids)) eqn:Hid.
      * destruct (Z.eqb_spec (node_id n) id) as [-> | Hne]; simpl.
        -- rewrite Hid. simpl.
           destruct (defined v); simpl; [| reflexivity].
           rewrite last_cons.
           destruct (last _); [reflexivity |]. now rewrite lookup_insert_eq.
        -- destruct (last _); [reflexivity |].
           destruct (_ && _); [| reflexivity].
           now apply lookup_insert_ne.
      * destruct (_ && _) eqn:Hc; [| reflexivity].
        apply lookup_insert_ne. intros <-.
        apply andb_prop in Hc as [Hc _]. congruence.
Qed.

Lemma reported_Some id nodes vals v :
  reported id nodes vals = Some v ->
  defined v = true /\ exists n, n ∈ nodes /\ node_id n = id.
Proof.
  unfold reported. intros H.
  assert (v ∈ List.map snd
            (List.filter (fun nv => Z.eqb (node_id (fst nv)) id &&
                                    defined (snd nv))
                         (combine nodes vals))) as Hin.
  { rewrite last_lookup in H. eapply list_elem_of_lookup_2; eauto. }
  apply list_elem_of_In, List.in_map_iff in Hin as ([n w] & <- & Hin).
  apply List.filter_In in Hin as [Hin Hc]. simpl in Hc.
  apply andb_prop in Hc as [Hn Hd]. split; [exact Hd |].
  exists n. split.
  - apply list_elem_of_In. eapply List.in_combine_l; eauto.
  - now apply Z.eqb_eq.
Qed.

Section RunnerExtras.

Variable apply_host : hostfn -> Value -> Value -> HostResult.

Abbreviation dsl := (dslRuleHandler apply_host).
Abbreviation inOrder := (evalInOrder apply_host).

(** The loop of [run], through [evalInOrder]. *)
Lemma runLoop_inOrder sh b ids nodes rMap st st' vals :
  inOrder sh b nodes st = (st', Returns vals) ->
  runLoop apply_host sh b ids nodes rMap st =
    (st', Returns (collect ids nodes vals rMap)).
Proof.
  revert rMap st vals. induction nodes as [| n rest IH]; intros rMap st vals.
  - simpl. unfold ret. now intros [= <- <-].
  - destruct (dslRuleHandler_returns apply_host n sh b st) as (st1 & v & E1).
    destruct (evalInOrder_returns apply_host sh b rest st1)
      as (st2 & vs & E2 & _).
    rewrite (evalInOrder_cons _ _ _ _ _ _ _ _ _ _ E1 E2). intros [= <- <-].
    simpl. rewrite (bind_returns _ _ _ _ _ E1). now apply IH.
Qed.

Lemma run_inOrder ast ids :
  exists st' vals,
    inOrder (ast_shape ast) 0%nat (ast_nodes ast)
      (mkState [ast_bindings ast] []) = (st', Returns vals) /\
    length vals = length (ast_nodes ast) /\
    run apply_host ast ids =
      (st', Returns (collect ids (ast_nodes ast) vals ∅)).
Proof.
  destruct (evalInOrder_returns apply_host (ast_shape ast) 0%nat
              (ast_nodes ast) (mkState [ast_bindings ast] []))
    as (st' & vals & E & L).
  exists st', vals. split; [exact E |]. split; [exact L |].
  unfold run. now apply runLoop_inOrder.
Qed.

(** X1: an Array node evaluates all its children in order with the
    bindings it is given and returns the array of the defined results,
    in that order: [undefined] results are dropped and leave no hole.
    It never throws and never yields [undefined] itself, and it leaves
    the bindings as they were. *)
Theorem array_keeps_defined_in_order id nodes p b st o :
  scopes st !! b = Some o ->
  exists st' vals,
    inOrder ShArray b nodes st = (st', Returns vals) /\
    length vals = length nodes /\
    dsl (Array id nodes) p b st =
      (st', Returns (VArr (List.filter defined vals))) /\
    Forall (fun v => defined v = true) (List.filter defined vals) /\
    scopes st' !! b = Some o.
Proof.
  intros Eb.
  destruct (arrayRuleHandler_eq apply_host nodes b st)
    as (st' & vals & E & D).
  exists st', vals. split; [exact E |]. split.
  { destruct (evalInOrder_returns apply_host ShArray b nodes st)
      as (st2 & vals2 & E2 & L).
    rewrite E in E2. now injection E2 as <- <-. }
  split; [| split].
  - rewrite dslRuleHandler_unfold. unfold try_catch. simpl. now rewrite D.
  - apply Forall_forall. intros v Hv.
    apply list_elem_of_In, List.filter_In in Hv. tauto.
  - rewrite <- Eb. change st' with ((st', @Returns (list Value) vals).1).
    rewrite <- E. apply evalInOrder_keeps; [discriminate |].
    eapply lookup_lt_Some; eauto.
Qed.

(** X3: the mapping [run] returns holds only requested ids, each the id
    of a top-level node, and only defined values. *)
Theorem run_reports_only_requested ast ids rMap id v :
  (run apply_host ast ids).2 = Returns rMap ->
  rMap !! id = Some v ->
  id ∈ ids /\ defined v = true /\
  exists n, n ∈ ast_nodes ast /\ node_id n = id.
Proof.
  destruct (run_inOrder ast ids) as (st' & vals & _ & _ & ->).
  simpl. intros [= <-]. rewrite collect_lookup, lookup_empty.
  destruct (bool_decide (id ∈ ids)) eqn:Hid; [| discriminate].
  apply bool_decide_eq_true in Hid.
  destruct (reported id (ast_nodes ast) vals) as [w |] eqn:Hr;
    [| discriminate].
  intros [= ->]. split; [exact Hid |]. now apply reported_Some in Hr.
Qed.

(** X4: what [run] returns for an id: nothing when the id was not
    requested; otherwise the value of the last top-level node with that
    id that produced a defined value (a later node overwrites an earlier
    one with the same id), and nothing when there is no such node. *)
Theorem run_reports_last_defined ast ids id :
  exists st' vals rMap,
    inOrder (ast_shape ast) 0%nat (ast_nodes ast)
      (mkState [ast_bindings ast] []) = (st', Returns vals) /\
    run apply_host ast ids = (st', Returns rMap) /\
    rMap !! id =
      if bool_decide (id ∈ ids) then reported id (ast_nodes ast) vals
      else None.
Proof.
  destruct (run_inOrder ast ids) as (st' & vals & E & _ & R).
  exists st', vals, (collect ids (ast_nodes ast) vals ∅).
  split; [exact E |]. split; [exact R |].
  rewrite collect_lookup, lookup_empty.
  destruct (bool_decide (id ∈ ids)); [| reflexivity].
  now destruct (reported id (ast_nodes ast) vals).
Qed.

(** X5: the interest ids only select what is reported: every top-level
    node is evaluated whatever they are, so the bindings and the
    diagnostics [run] leaves behind do not depend on them. *)
Theorem run_state_ignores_interest ast ids ids' :
  (run apply_host ast ids).1 = (run apply_host ast ids').1.
Proof.
  destruct (run_inOrder ast ids) as (st1 & vals1 & E1 & _ & ->).
  destruct (run_inOrder ast ids') as (st2 & vals2 & E2 & _ & ->).
  simpl. congruence.
Qed.

(** X6: when the root object does not have the shape Block, [run] never
    writes to the root bindings: they are the same after the run. *)
Theorem run_without_block_root_keeps_bindings ast ids :
  ast_shape ast <> ShBlock ->
  scopes (run apply_host ast ids).1 !! 0%nat = Some (ast_bindings ast).
Proof.
  intros Hs.
  destruct (run_inOrder ast ids) as (st' & vals & E & _ & ->). simpl.
  change st' with ((st', @Returns (list Value) vals).1). rewrite <- E.
  rewrite evalInOrder_keeps; [reflexivity | exact Hs | simpl; lia].
Qed.

(** *** Scopes *)

Lemma evalInOrder_grows p b nodes st :
  (length (scopes st) <= length (scopes (inOrder p b nodes st).1))%nat.
Proof.
  destruct (evalInOrder_frame apply_host p b nodes) with (st := st)
    as [L _]; [| exact L].
  apply Forall_forall. intros n _. apply dslRuleHandler_frame.
Qed.

(** After an Assignment to [x] directly in a Block (or at the top level
    of a Block root) that bound [v], and siblings that do not assign
    [x] again, [x] is bound to [v] in the current scope. *)
Lemma assignment_persists b pre i x rhs mid st sp pvals s1 v :
  x <> "__proto__" ->
  is_Some (scopes st !! b) ->
  inOrder ShBlock b pre st = (sp, Returns pvals) ->
  dsl rhs ShAssignment b sp = (s1, Returns v) ->
  defined v = true ->
  Forall (fun n => ~ assigns x n) mid ->
  exists st' mvals o',
    inOrder ShBlock b (pre ++ Assignment i x rhs :: mid) st =
      (st', Returns (pvals ++ v :: mvals)%list) /\
    scopes st' !! b = Some o' /\ o' !! x = Some v.
Proof.
  intros Hx Hb Ep E1 Hv Hmid.
  apply lookup_lt_is_Some in Hb.
  assert (b < length (scopes sp))%nat as Hbp.
  { pose proof (evalInOrder_grows ShBlock b pre st) as L.
    rewrite Ep in L. simpl in L. lia. }
  destruct (lookup_lt_is_Some_2 _ _ Hbp) as [op Eop].
  assert (scopes s1 !! b = Some op) as Eo1.
  { rewrite <- Eop. change s1 with ((s1, Returns v).1). rewrite <- E1.
    apply dslRuleHandler_keeps; [left; discriminate | exact Hbp]. }
  pose proof (assignment_block_binds apply_host i x rhs b sp s1 v op E1 Eo1
                Hx Hv) as Ea.
  set (s2 := mkState (<[b := <[x := v]> op]> (scopes s1)) (console s1)) in Ea.
  assert (scopes s2 !! b = Some (<[x := v]> op)) as E2.
  { simpl. apply list_lookup_insert_eq. eapply lookup_lt_Some; eauto. }
  destruct (evalInOrder_returns apply_host ShBlock b mid s2)
    as (s3 & mvals & Em & _).
  destruct (evalInOrder_keeps_name apply_host ShBlock b mid s2 _ x Hmid E2)
    as (o3 & E3 & X3).
  rewrite Em in E3. simpl in E3. rewrite lookup_insert_eq in X3.
  exists s3, mvals, o3. split; [| split; [exact E3 | exact X3]].
  eapply evalInOrder_app; [exact Ep |].
  eapply evalInOrder_cons; eauto.
Qed.



(** X7: with a root of shape Block, a top-level Assignment that bound
    [v] to a name [x] other than [__proto__], with no top-level
    Assignment to [__proto__] before it, is written into the root
    bindings themselves: unless a later top-level Assignment binds [x]
    again, [x] is bound to [v] in the root bindings when [run]
    returns. *)
Theorem run_assignment_persists ast ids pre i x rhs post sp pvals s1 v :
  x <> "__proto__" ->
  Forall (fun n => ~ assigns "__proto__" n) pre ->
  ast_shape ast = ShBlock ->
  ast_nodes ast = (pre ++ Assignment i x rhs :: post)%list ->
  inOrder ShBlock 0%nat pre (mkState [ast_bindings ast] []) =
    (sp, Returns pvals) ->
  dsl rhs ShAssignment 0%nat sp = (s1, Returns v) ->
  defined v = true ->
  Forall (fun n => ~ assigns x n) post ->
  exists o', scopes (run apply_host ast ids).1 !! 0%nat = Some o' /\
             o' !! x = Some v.
Proof.
  intros Hx _ Hs Hn Ep E1 Hv Hpost.
  destruct (run_inOrder ast ids) as (st' & vals & E & _ & ->). simpl.
  rewrite Hs, Hn in E.
  destruct (assignment_persists 0%nat pre i x rhs post
              (mkState [ast_bindings ast] []) sp pvals s1 v
              Hx (mk_is_Some _ _ eq_refl) Ep E1 Hv Hpost)
    as (s3 & mvals & o3 & Em & E3 & X3).
  rewrite Em in E. injection E as <- <-.
  now exists o3.
Qed.

(** X9: an Assignment cannot be chained. In [x = (y = rhs)] directly in
    a Block, the inner Assignment has an Assignment as its parent and is
    rejected before [rhs] is evaluated; nothing is bound, the one
    diagnostic "invalid parent" for the inner node is appended, and the
    outer Assignment returns what [x] resolved to before. *)
Theorem chained_assignment_binds_nothing i x j y rhs b st o :
  scopes st !! b = Some o ->
  dsl (Assignment i x (Assignment j y rhs)) ShBlock b st =
    (mkState (scopes st) (console st ++ [InvalidPosition j]),
     Returns (lookup_prop o x)).
Proof.
  intros Eb.
  assert (dsl (Assignment j y rhs) ShAssignment b st =
          (mkState (scopes st) (console st ++ [InvalidPosition j]),
           Returns VUndef)) as Ei
    by (now rewrite dslRuleHandler_unfold).
  now rewrite (assignment_block_step apply_host i x (Assignment j y rhs) b st
                 _ _ o Ei Eb).
Qed.

(** X10: a Block or Array node always produces a defined value (0 and
    the empty array at least), so when it is the last child of a Block
    its value is the value of that Block, whatever the earlier children
    produced. *)
Theorem block_ends_with_block_or_array id pre n own p pB st :
  shape_of n = ShBlock \/ shape_of n = ShArray ->
  exists s1 pvals s2 v,
    inOrder ShBlock (length (scopes st)) pre
      (mkState (scopes st ++ [own ∪ default ∅ (scopes st !! pB)])
               (console st)) = (s1, Returns pvals) /\
    dsl n ShBlock (length (scopes st)) s1 = (s2, Returns v) /\
    defined v = true /\
    dsl (Block id (pre ++ [n]) own) p pB st = (s2, Returns v).
Proof.
  intros Hn.
  set (st0 := mkState (scopes st ++ [own ∪ default ∅ (scopes st !! pB)])
                      (console st)).
  set (cB := length (scopes st)).
  destruct (evalInOrder_returns apply_host ShBlock cB pre st0)
    as (s1 & pvals & Ep & _).
  assert (exists s2 v, dsl n ShBlock cB s1 = (s2, Returns v) /\
                       defined v = true) as (s2 & v & En & Hv).
  { destruct n as [k ns ow | | k ns | | | |];
      try (destruct Hn as [Hn | Hn]; discriminate Hn).
    - destruct (block_evaluates_children apply_host k ns ow ShBlock cB s1)
        as (s2 & vals & _ & _ & D).
      exists s2, (lastDefined (VNum (Int 0)) vals). split; [exact D |].
      now apply lastDefined_defined.
    - destruct (arrayRuleHandler_eq apply_host ns cB s1)
        as (s2 & vals & _ & D).
      exists s2, (VArr (List.filter defined vals)). split; [| reflexivity].
      rewrite dslRuleHandler_unfold. unfold try_catch. simpl.
      now rewrite D. }
  exists s1, pvals, s2, v.
  split; [exact Ep |]. split; [exact En |]. split; [exact Hv |].
  destruct (block_evaluates_children apply_host id (pre ++ [n]) own p pB st)
    as (st' & vals & E & _ & D).
  fold st0 cB in E.
  assert (inOrder ShBlock cB [n] s1 = (s2, Returns [v])) as El
    by (eapply evalInOrder_cons; [exact En | reflexivity]).
  rewrite (evalInOrder_app _ _ _ _ _ _ _ _ _ _ Ep El) in E.
  injection E as <- <-.
  rewrite D. now rewrite lastDefined_snoc.
Qed.

(** *** What an evaluation never does *)

Lemma try_catch_console body st l :
  l `prefix_of` console (body st).1 ->
  l `prefix_of` console (try_catch body st).1.
Proof.
  unfold try_catch. destruct (body st) as [st' [v | e]]; simpl; [auto |].
  apply prefix_app_r.
Qed.

Lemma evalInOrder_console p b nodes :
  Forall (fun n => forall p b st,
            console st `prefix_of` console (dsl n p b st).1) nodes ->
  forall st, console st `prefix_of` console (inOrder p b nodes st).1.
Proof.
  induction 1 as [| n rest Hn _ IH]; intros st.
  - reflexivity.
  - destruct (dslRuleHandler_returns apply_host n p b st) as (st1 & v & E1).
    destruct (evalInOrder_returns apply_host p b rest st1)
      as (st2 & vs & E2 & _).
    rewrite (evalInOrder_cons _ _ _ _ _ _ _ _ _ _ E1 E2). simpl.
    specialize (Hn p b st). rewrite E1 in Hn.
    specialize (IH st1). rewrite E2 in IH.
    etrans; eauto.
Qed.

(** X8: evaluation only ever appends to the diagnostics: what was logged
    before a node is evaluated is still there afterwards, in the same
    order, followed by what the node and the nodes below it logged. *)
Theorem diagnostics_are_only_appended n :
  forall p b st,
    exists more,
      console (dslRuleHandler apply_host n p b st).1 =
      (console st ++ more)%list.
Proof.
  change (forall p b st, console st `prefix_of` console (dsl n p b st).1).
  induction n as [id nodes own IH | id name rhs IH | id nodes IH
                 | id callee args IH | id v | id x | id]
    using DslNode_nested_ind; intros p b st;
    rewrite dslRuleHandler_unfold; apply try_catch_console; simpl.
  - destruct (blockRuleHandler_eq apply_host nodes own b st)
      as (st' & vals & E & ->). simpl.
    pose proof (evalInOrder_console ShBlock (length (scopes st)) nodes IH
                  (mkState (scopes st ++ [own ∪ default ∅ (scopes st !! b)])
                           (console st))) as H.
    now rewrite E in H.
  - unfold assignmentRuleHandler. destruct p; try reflexivity.
    destruct (dslRuleHandler_returns apply_host rhs ShAssignment b st)
      as (st1 & v & E1).
    specialize (IH ShAssignment b st). rewrite E1 in IH. simpl in IH.
    rewrite (bind_returns _ _ _ _ _ E1).
    unfold bind, set_prop, get_prop, ret.
    destruct (defined v); simpl;
      destruct (scopes st1 !! b) as [o |] eqn:Eb; simpl; rewrite ?Eb;
      simpl; try exact IH.
    rewrite list_lookup_insert_eq by (eapply lookup_lt_Some; eauto).
    exact IH.
  - destruct (arrayRuleHandler_eq apply_host nodes b st)
      as (st' & vals & E & ->). simpl.
    pose proof (evalInOrder_console ShArray b nodes IH st) as H.
    now rewrite E in H.
  - destruct (functionRuleHandler_eq apply_host id callee args b st)
      as (st' & vals & E & _ & ->).
    pose proof (evalInOrder_console ShFunction b args IH st) as H.
    rewrite E in H. simpl in H.
    unfold bind, get_prop.
    destruct (scopes st' !! b) as [o |]; simpl; [| exact H].
    destruct (lookup_prop o callee); simpl; try exact H.
    destruct (apply_host _ _ _); exact H.
  - unfold literalRuleHandler. now destruct (is_number v).
  - unfold identifierRuleHandler, get_prop. now destruct (scopes st !! b).
  - reflexivity.
Qed.

(** X12: the only node that writes to an existing bindings object is an
    Assignment directly in a Block, and it writes to the object it is
    given only. Every other node, whatever is nested in it, leaves all
    the bindings objects that existed as they were; new objects (the
    child scopes of Blocks) come after them. *)
Theorem only_block_assignment_writes n p b st :
  (forall l, l <> b -> (l < length (scopes st))%nat ->
             scopes (dsl n p b st).1 !! l = scopes st !! l) /\
  (p <> ShBlock \/ shape_of n <> ShAssignment ->
   take (length (scopes st)) (scopes (dsl n p b st).1) = scopes st).
Proof.
  destruct (dslRuleHandler_frame apply_host n p b st) as [L K].
  split.
  - intros l Hl Hlt. apply K; [exact Hlt | tauto].
  - intros Hk. apply list_eq. intros l.
    destruct (decide (l < length (scopes st))%nat) as [Hl | Hl].
    + rewrite lookup_take_lt by exact Hl. apply K; [exact Hl | tauto].
    + rewrite lookup_take_ge by lia.
      symmetry. apply lookup_ge_None. lia.
Qed.

(** *** Nodes of an unrecognised shape *)

Lemma lastDefined_skip d pvals qvals :
  lastDefined d (pvals ++ VUndef :: qvals) = lastDefined d (pvals ++ qvals).
Proof. unfold lastDefined. now rewrite !List.filter_app. Qed.

Lemma collect_skip ids k post qvals pre :
  forall pvals rMap,
    length pvals = length pre ->
    collect ids (pre ++ Other k :: post) (pvals ++ VUndef :: qvals) rMap =
    collect ids (pre ++ post) (pvals ++ qvals) rMap.
Proof.
  induction pre as [| n pre IH]; intros [| v pvals] rMap L;
    try discriminate L.
  - simpl. now rewrite andb_false_r.
  - simpl. apply IH. now injection L.
Qed.

Lemma evalInOrder_skip_other p b pre k post st :
  exists st' pvals qvals,
    length pvals = length pre /\
    inOrder p b (pre ++ Other k :: post) st =
      (st', Returns (pvals ++ VUndef :: qvals)%list) /\
    inOrder p b (pre ++ post) st = (st', Returns (pvals ++ qvals)%list).
Proof.
  destruct (evalInOrder_returns apply_host p b pre st)
    as (s1 & pvals & Ep & Lp).
  destruct (evalInOrder_returns apply_host p b post s1)
    as (s2 & qvals & Eq & _).
  exists s2, pvals, qvals. split; [exact Lp |]. split.
  - eapply evalInOrder_app; [exact Ep |].
    eapply evalInOrder_cons; [| exact Eq]. reflexivity.
  - eapply evalInOrder_app; eauto.
Qed.

(** X13: a node of an unrecognised shape is inert. It yields
    [undefined] without a diagnostic, so taking it out of the children
    of a Block, out of the elements of an Array or out of the top-level
    nodes of a program changes neither the result nor the bindings nor
    the diagnostics. *)
Theorem unrecognised_node_is_inert k pre post :
  (forall id own p pB st,
     dsl (Block id (pre ++ Other k :: post) own) p pB st =
     dsl (Block id (pre ++ post) own) p pB st) /\
  (forall id p b st,
     dsl (Array id (pre ++ Other k :: post)) p b st =
     dsl (Array id (pre ++ post)) p b st) /\
  (forall sh bs ids,
     run apply_host (mkAst sh (pre ++ Other k :: post) bs) ids =
     run apply_host (mkAst sh (pre ++ post) bs) ids).
Proof.
  split; [| split].
  - intros id own p pB st.
    destruct (block_evaluates_children apply_host id
                (pre ++ Other k :: post) own p pB st)
      as (s1 & v1 & E1 & _ & ->).
    destruct (block_evaluates_children apply_host id (pre ++ post) own p pB st)
      as (s2 & v2 & E2 & _ & ->).
    destruct (evalInOrder_skip_other ShBlock (length (scopes st)) pre k post
                (mkState (scopes st ++ [own ∪ default ∅ (scopes st !! pB)])
                         (console st)))
      as (s & pvals & qvals & _ & Ea & Eb).
    rewrite Ea in E1. rewrite Eb in E2.
    injection E1 as <- <-. injection E2 as <- <-.
    now rewrite lastDefined_skip.
  - intros id p b st. rewrite !dslRuleHandler_unfold.
    unfold try_catch. simpl.
    destruct (arrayRuleHandler_eq apply_host (pre ++ Other k :: post) b st)
      as (s1 & v1 & E1 & ->).
    destruct (arrayRuleHandler_eq apply_host (pre ++ post) b st)
      as (s2 & v2 & E2 & ->).
    destruct (evalInOrder_skip_other ShArray b pre k post st)
      as (s & pvals & qvals & _ & Ea & Eb).
    rewrite Ea in E1. rewrite Eb in E2.
    injection E1 as <- <-. injection E2 as <- <-.
    now rewrite !List.filter_app.
  - intros sh bs ids.
    destruct (run_inOrder (mkAst sh (pre ++ Other k :: post) bs) ids)
      as (s1 & v1 & E1 & _ & ->).
    destruct (run_inOrder (mkAst sh (pre ++ post) bs) ids)
      as (s2 & v2 & E2 & _ & ->).
    simpl in E1, E2 |- *.
    destruct (evalInOrder_skip_other sh 0%nat pre k post (mkState [bs] []))
      as (s & pvals & qvals & L & Ea & Eb).
    rewrite Ea in E1. rewrite Eb in E2.
    injection E1 as <- <-. injection E2 as <- <-.
    now rewrite collect_skip.
Qed.

End RunnerExtras.

(** * More scenarios *)

Lemma array_keeps_defined_in_order_witness :
  scopes empty_scope !! 0%nat = Some ∅ /\
  dslRuleHandler scenario_host
    (Array 1 [Literal 2 (VNum (Int 1)); Identifier 3 "q";
              Literal 4 (VNum (Int 3))])
    ShBlock 0 empty_scope =
    (empty_scope, Returns (VArr [VNum (Int 1); VNum (Int 3)])).
Proof.
  split; [reflexivity |].
  destruct (array_keeps_defined_in_order scenario_host 1
              [Literal 2 (VNum (Int 1)); Identifier 3 "q";
               Literal 4 (VNum (Int 3))]
              ShBlock 0%nat empty_scope ∅ eq_refl)
    as (st' & vals & E & L & D & F & S).
  rewrite D. vm_compute in E. injection E as <- <-. reflexivity.
Defined.


Lemma run_reports_only_requested_witness :
  (run scenario_host scenario_block_ast [2]).2 =
    Returns {[ 2 := VNum (Int 5) ]} /\
  ({[ 2 := VNum (Int 5) ]} : gmap Z Value) !! 2 = Some (VNum (Int 5)) /\
  2 ∈ [2] /\ defined (VNum (Int 5)) = true /\
  exists n, n ∈ ast_nodes scenario_block_ast /\ node_id n = 2.
Proof.
  split; [reflexivity |]. split; [reflexivity |].
  exact (run_reports_only_requested scenario_host scenario_block_ast [2]
           {[ 2 := VNum (Int 5) ]} 2 (VNum (Int 5)) eq_refl eq_refl).
Defined.

Lemma run_without_block_root_keeps_bindings_witness :
  ast_shape scenario_ast <> ShBlock /\
  scopes (run scenario_host scenario_ast [2]).1 !! 0%nat =
    Some {[ "add" := VFun add_src ]}.
Proof.
  split; [discriminate |].
  exact (run_without_block_root_keeps_bindings scenario_host scenario_ast
           [2] ltac:(discriminate)).
Defined.

Lemma run_assignment_persists_witness :
  "a" <> "__proto__" /\
  Forall (fun n => ~ assigns "__proto__" n) [] /\
  ast_shape scenario_block_ast = ShBlock /\
  exists o', scopes (run scenario_host scenario_block_ast []).1 !! 0%nat =
               Some o' /\
             o' !! "a" = Some (VNum (Int 2)).
Proof.
  split; [discriminate |]. split; [constructor |]. split; [reflexivity |].
  apply (run_assignment_persists scenario_host scenario_block_ast [] []
           1 "a" (Literal 0 (VNum (Int 2)))
           [Function 2 "add" [Identifier 0 "a"; Literal 0 (VNum (Int 3))]]
           (mkState [ {[ "add" := VFun add_src ]} ] []) []
           (mkState [ {[ "add" := VFun add_src ]} ] []) (VNum (Int 2)));
    try reflexivity; [discriminate | constructor |].
  repeat constructor. intros [].
Defined.

Lemma chained_assignment_binds_nothing_witness :
  scopes scope_with_a !! 0%nat = Some {[ "a" := VNum (Int 1) ]} /\
  dslRuleHandler scenario_host
    (Assignment 1 "a" (Assignment 2 "b" (Literal 3 (VNum (Int 7)))))
    ShBlock 0 scope_with_a =
    (mkState [ {[ "a" := VNum (Int 1) ]} ] [InvalidPosition 2],
     Returns (VNum (Int 1))).
Proof.
  split; [reflexivity |].
  exact (chained_assignment_binds_nothing scenario_host 1 "a" 2 "b"
           (Literal 3 (VNum (Int 7))) 0%nat scope_with_a
           {[ "a" := VNum (Int 1) ]} eq_refl).
Defined.

Lemma block_ends_with_block_or_array_witness :
  (shape_of (Block 3 [] ∅) = ShBlock \/ shape_of (Block 3 [] ∅) = ShArray) /\
  (dslRuleHandler scenario_host
     (Block 1 [Literal 2 (VNum (Int 5)); Block 3 [] ∅] ∅)
     ShOther 0 empty_scope).2 = Returns (VNum (Int 0)).
Proof.
  split; [left; reflexivity |].
  destruct (block_ends_with_block_or_array scenario_host 1
              [Literal 2 (VNum (Int 5))] (Block 3 [] ∅) ∅ ShOther 0%nat
              empty_scope (or_introl eq_refl))
    as (s1 & pvals & s2 & v & Ep & En & Hv & D).
  simpl app in D. rewrite D. simpl.
  vm_compute in Ep. injection Ep as <- <-.
  vm_compute in En. injection En as _ <-. reflexivity.
Defined.


Lemma only_block_assignment_writes_witness :
  (ShFunction <> ShBlock \/
   shape_of (Array 1 [Block 2 [Assignment 3 "x" (Literal 4 (VNum (Int 7)))]
                        ∅]) <> ShAssignment) /\
  take (length (scopes empty_scope))
    (scopes (dslRuleHandler scenario_host
               (Array 1 [Block 2 [Assignment 3 "x"
                                    (Literal 4 (VNum (Int 7)))] ∅])
               ShFunction 0 empty_scope).1) = scopes empty_scope.
Proof.
  split; [left; discriminate |].
  apply only_block_assignment_writes. left. discriminate.
Defined.
